(** * Bond pricing and risk analytics: a shallow embedding of
      [ficc/fixed_income/bonds.py]

    Number model.  The Python functions take and return [float]s (and an
    [int] coupon frequency).  Floats are idealised here as exact rationals
    [Q]: every arithmetic operation is the exact one, a division by zero
    raises [ZeroDivisionError] exactly as Python's float division does, and
    the binary rounding error, overflow, infinities and NaN of IEEE doubles
    are outside the model.  [round(x, n)] is decimal round-half-to-even,
    [int(x)] truncates towards zero.

    Dictionaries of named metrics are finite maps from strings to numbers.
    Exceptions are the [Raise] branch of a small error monad. *)

From Stdlib Require Import QArith Qround Qabs Qpower Lqa ZArith Lia.
From stdpp Require Import gmap strings list.

(** ** Exceptions and the error monad *)

Inductive exn : Type :=
  | ValueError (msg : string)
  | ZeroDivisionError
  | OverflowError
  | KeyError (key : string).

Inductive result (A : Type) : Type :=
  | Ok (a : A)
  | Raise (e : exn).

Arguments Ok {A} a.
Arguments Raise {A} e.

#[global] Instance result_ret : MRet result := fun _ a => Ok a.
#[global] Instance result_bind : MBind result := fun _ _ f m =>
  match m with
  | Ok a => f a
  | Raise e => Raise e
  end.

Definition is_value_error {A} (r : result A) : Prop :=
  match r with
  | Raise (ValueError _) => True
  | _ => False
  end.

Definition returns {A} (r : result A) : Prop :=
  match r with
  | Ok _ => True
  | Raise _ => False
  end.

(** ** Python primitives on numbers *)

Module Py.

(** [a < b] on floats. *)
Definition ltb (a b : Q) : bool := negb (Qle_bool b a).

(** [int(x)]: truncation towards zero. *)
Definition int (x : Q) : Z := Z.quot (Qnum x) (Zpos (Qden x)).

(** [a / b]: true division, raising on a zero divisor. *)
Definition div (a b : Q) : result Q :=
  if Qeq_bool b 0 then Raise ZeroDivisionError else Ok (a / b)%Q.

(** [x ** k] for an integer exponent [k]; zero to a negative power raises. *)
Definition pow (x : Q) (k : Z) : result Q :=
  if Qeq_bool x 0 && (k <? 0)%Z then Raise ZeroDivisionError
  else Ok (x ^ k)%Q.

(** Nearest integer, ties to the even neighbour. *)
Definition round_half_even (x : Q) : Z :=
  let f := Qfloor x in
  match (x - inject_Z f ?= 1 # 2)%Q with
  | Lt => f
  | Gt => (f + 1)%Z
  | Eq => if Z.even f then f else (f + 1)%Z
  end.

(** [round(x, ndigits)]. *)
Definition round (x : Q) (ndigits : nat) : Q :=
  (inject_Z (round_half_even (x * 10 ^ Z.of_nat ndigits))
   / 10 ^ Z.of_nat ndigits)%Q.

(** [range(lo, hi)]. *)
Definition range (lo hi : Z) : list Z := seqZ lo (hi - lo).

(** [for x in xs: acc = body(x, acc)], stopping at the first exception. *)
Fixpoint for_each {A S : Type} (xs : list A) (body : A -> S -> result S)
    (acc : S) : result S :=
  match xs with
  | [] => Ok acc
  | x :: xs' =>
      match body x acc with
      | Ok acc' => for_each xs' body acc'
      | Raise e => Raise e
      end
  end.

(** [d[key]]. *)
Definition getitem (d : gmap string Q) (key : string) : result Q :=
  match d !! key with
  | Some v => Ok v
  | None => Raise (KeyError key)
  end.

(** [{**a, **b}]: the entries of [b] win on a shared key. *)
Definition merge (a b : gmap string Q) : gmap string Q := b ∪ a.

End Py.

(** ** The six operations *)

Section Bonds.

Local Open Scope Q_scope.

Definition price_bond (face_value coupon_rate yield_to_maturity
    years_to_maturity : Q) (coupon_frequency : Z) : result (gmap string Q) :=
  if Qle_bool face_value 0 || Qle_bool years_to_maturity 0 then
    Raise (ValueError "Face value and maturity must be positive")
  else if Py.ltb coupon_rate 0 || Py.ltb yield_to_maturity 0 then
    Raise (ValueError "Rates cannot be negative")
  else if negb (bool_decide (coupon_frequency ∈ [1; 2; 4; 12]%Z)) then
    Raise (ValueError "Frequency must be 1, 2, 4, or 12")
  else
    let n_periods := Py.int (years_to_maturity * inject_Z coupon_frequency) in
    coupon_payment ← Py.div (face_value * coupon_rate) (inject_Z coupon_frequency);
    periodic_yield ← Py.div yield_to_maturity (inject_Z coupon_frequency);
    price ←
      (if Qeq_bool coupon_rate 0 then
         d ← Py.pow (1 + periodic_yield) n_periods;
         Py.div face_value d
       else if Qeq_bool periodic_yield 0 then
         Ok (coupon_payment * inject_Z n_periods + face_value)
       else
         g ← Py.pow (1 + periodic_yield) (- n_periods);
         pv_coupons ← Py.div (coupon_payment * (1 - g)) periodic_yield;
         d ← Py.pow (1 + periodic_yield) n_periods;
         pv_principal ← Py.div face_value d;
         Ok (pv_coupons + pv_principal));
    Ok ({[ "price" := Py.round price 2;
           "dirty_price" := Py.round price 2;
           "discount_premium" := Py.round (price - face_value) 2;
           "par_yield_diff" :=
             Py.round ((coupon_rate - yield_to_maturity) * 10000) 0 ]}
        : gmap string Q).

(** Body of the loop of [calculate_duration] (lines 59-63); the accumulator
    is [weighted_cf_time]. *)
Definition duration_step (face_value coupon_payment periodic_yield
    bond_price : Q) (n_periods coupon_frequency : Z)
    (period : Z) (weighted_cf_time : Q) : result Q :=
  time_years ← Py.div (inject_Z period) (inject_Z coupon_frequency);
  let cash_flow :=
    coupon_payment + (if (period =? n_periods)%Z then face_value else 0) in
  d ← Py.pow (1 + periodic_yield) period;
  pv_cf ← Py.div cash_flow d;
  w ← Py.div pv_cf bond_price;
  Ok (weighted_cf_time + w * time_years).

Definition calculate_duration (face_value coupon_rate yield_to_maturity
    years_to_maturity : Q) (coupon_frequency : Z) : result (gmap string Q) :=
  pm ← price_bond face_value coupon_rate yield_to_maturity years_to_maturity
         coupon_frequency;
  bond_price ← Py.getitem pm "price";
  let n_periods := Py.int (years_to_maturity * inject_Z coupon_frequency) in
  coupon_payment ← Py.div (face_value * coupon_rate) (inject_Z coupon_frequency);
  periodic_yield ← Py.div yield_to_maturity (inject_Z coupon_frequency);
  weighted_cf_time ←
    Py.for_each (Py.range 1 (n_periods + 1))
      (duration_step face_value coupon_payment periodic_yield bond_price
         n_periods coupon_frequency) 0;
  let macaulay_duration := weighted_cf_time in
  y ← Py.div yield_to_maturity (inject_Z coupon_frequency);
  modified_duration ← Py.div macaulay_duration (1 + y);
  let price_change_1bp := - modified_duration * bond_price * 0.0001 in
  Ok ({[ "macaulay_duration" := Py.round macaulay_duration 4;
         "modified_duration" := Py.round modified_duration 4;
         "approx_price_change_1bp" := Py.round price_change_1bp 4 ]}
      : gmap string Q).

(** Body of the loop of [calculate_convexity] (lines 93-96); the accumulator
    is [convexity_sum]. *)
Definition convexity_step (face_value coupon_payment periodic_yield : Q)
    (n_periods : Z) (period : Z) (convexity_sum : Q) : result Q :=
  let cash_flow :=
    coupon_payment + (if (period =? n_periods)%Z then face_value else 0) in
  d ← Py.pow (1 + periodic_yield) period;
  pv_cf ← Py.div cash_flow d;
  Ok (convexity_sum + inject_Z (period * (period + 1)) * pv_cf).

Definition calculate_convexity (face_value coupon_rate yield_to_maturity
    years_to_maturity : Q) (coupon_frequency : Z) : result (gmap string Q) :=
  pm ← price_bond face_value coupon_rate yield_to_maturity years_to_maturity
         coupon_frequency;
  bond_price ← Py.getitem pm "price";
  let n_periods := Py.int (years_to_maturity * inject_Z coupon_frequency) in
  coupon_payment ← Py.div (face_value * coupon_rate) (inject_Z coupon_frequency);
  periodic_yield ← Py.div yield_to_maturity (inject_Z coupon_frequency);
  convexity_sum ←
    Py.for_each (Py.range 1 (n_periods + 1))
      (convexity_step face_value coupon_payment periodic_yield n_periods) 0;
  sq ← Py.pow (1 + periodic_yield) 2;
  convexity ← Py.div convexity_sum (bond_price * sq);
  convexity ← Py.div convexity (inject_Z (coupon_frequency ^ 2));
  let convexity_adjustment_1bp := 0.5 * convexity * (0.0001 ^ 2) * bond_price in
  Ok ({[ "convexity" := Py.round convexity 4;
         "convexity_adjustment_1bp" := Py.round convexity_adjustment_1bp 6 ]}
      : gmap string Q).

Definition calculate_dv01 (face_value coupon_rate yield_to_maturity
    years_to_maturity : Q) (coupon_frequency : Z) : result (gmap string Q) :=
  pm ← price_bond face_value coupon_rate yield_to_maturity years_to_maturity
         coupon_frequency;
  price_base ← Py.getitem pm "price";
  pm_up ← price_bond face_value coupon_rate (yield_to_maturity + 0.0001)
            years_to_maturity coupon_frequency;
  price_up ← Py.getitem pm_up "price";
  let dv01 := Qabs (price_base - price_up) in
  q ← Py.div dv01 face_value;
  let dv01_per_100 := q * 100 in
  Ok ({[ "dv01" := Py.round dv01 4;
         "dv01_per_100" := Py.round dv01_per_100 4 ]} : gmap string Q).

Definition bond_analytics (face_value coupon_rate yield_to_maturity
    years_to_maturity : Q) (coupon_frequency : Z) : result (gmap string Q) :=
  price_metrics ← price_bond face_value coupon_rate yield_to_maturity
                    years_to_maturity coupon_frequency;
  duration_metrics ← calculate_duration face_value coupon_rate
                       yield_to_maturity years_to_maturity coupon_frequency;
  convexity_metrics ← calculate_convexity face_value coupon_rate
                        yield_to_maturity years_to_maturity coupon_frequency;
  dv01_metrics ← calculate_dv01 face_value coupon_rate yield_to_maturity
                   years_to_maturity coupon_frequency;
  Ok (Py.merge (Py.merge (Py.merge price_metrics duration_metrics)
                  convexity_metrics) dv01_metrics).

Definition price_change_estimate (face_value coupon_rate yield_to_maturity
    years_to_maturity yield_change : Q) (coupon_frequency : Z)
    (include_convexity : bool) : result (gmap string Q) :=
  analytics ← bond_analytics face_value coupon_rate yield_to_maturity
                years_to_maturity coupon_frequency;
  current_price ← Py.getitem analytics "price";
  modified_duration ← Py.getitem analytics "modified_duration";
  convexity ← Py.getitem analytics "convexity";
  let duration_effect := - modified_duration * current_price * yield_change in
  convexity_effect ←
    (if include_convexity then
       sq ← Py.pow yield_change 2;
       Ok (0.5 * convexity * current_price * sq)
     else Ok 0);
  let estimated_new_price := current_price + duration_effect + convexity_effect in
  pm ← price_bond face_value coupon_rate (yield_to_maturity + yield_change)
         years_to_maturity coupon_frequency;
  actual_new_price ← Py.getitem pm "price";
  Ok ({[ "current_price" := Py.round current_price 2;
         "estimated_new_price" := Py.round estimated_new_price 2;
         "actual_new_price" := Py.round actual_new_price 2;
         "estimation_error" :=
           Py.round (estimated_new_price - actual_new_price) 4;
         "duration_effect" := Py.round duration_effect 2;
         "convexity_effect" := Py.round convexity_effect 4 ]}
      : gmap string Q).

End Bonds.

(** ** Derived quantities and the values of the locals

    The definitions below name what the source computes in its local
    variables and the dictionaries it builds, so that the statements can
    refer to them. *)

Section Quantities.

Local Open Scope Q_scope.

Definition frequency_ok (coupon_frequency : Z) : Prop :=
  coupon_frequency ∈ [1; 2; 4; 12]%Z.

(** The triggers of the validation of [price_bond] (lines 14-19). *)
Definition invalid_quote (face_value coupon_rate yield_to_maturity
    years_to_maturity : Q) (coupon_frequency : Z) : Prop :=
  face_value <= 0 \/ years_to_maturity <= 0 \/
  coupon_rate < 0 \/ yield_to_maturity < 0 \/
  ~ frequency_ok coupon_frequency.

Definition valid_quote (face_value coupon_rate yield_to_maturity
    years_to_maturity : Q) (coupon_frequency : Z) : Prop :=
  0 < face_value /\ 0 < years_to_maturity /\
  0 <= coupon_rate /\ 0 <= yield_to_maturity /\
  frequency_ok coupon_frequency.

(** The derived quantities of lines 21-23, recomputed at lines 54-56 and
    88-90. *)
Definition n_periods (years_to_maturity : Q) (coupon_frequency : Z) : Z :=
  Py.int (years_to_maturity * inject_Z coupon_frequency).

Definition coupon_payment (face_value coupon_rate : Q) (coupon_frequency : Z) : Q :=
  face_value * coupon_rate / inject_Z coupon_frequency.

Definition periodic_yield (yield_to_maturity : Q) (coupon_frequency : Z) : Q :=
  yield_to_maturity / inject_Z coupon_frequency.

(** The value of the local [price] of [price_bond] before it is rounded
    (lines 25-32). *)
Definition dcf_price (face_value coupon_rate yield_to_maturity
    years_to_maturity : Q) (coupon_frequency : Z) : Q :=
  let n := n_periods years_to_maturity coupon_frequency in
  let c := coupon_payment face_value coupon_rate coupon_frequency in
  let r := periodic_yield yield_to_maturity coupon_frequency in
  if Qeq_bool coupon_rate 0 then face_value / (1 + r) ^ n
  else if Qeq_bool r 0 then c * inject_Z n + face_value
  else c * (1 - (1 + r) ^ (- n)) / r + face_value / (1 + r) ^ n.

(** The dictionary returned at lines 34-39 for a given unrounded price. *)
Definition price_metrics (price face_value coupon_rate yield_to_maturity : Q)
    : gmap string Q :=
  {[ "price" := Py.round price 2;
     "dirty_price" := Py.round price 2;
     "discount_premium" := Py.round (price - face_value) 2;
     "par_yield_diff" := Py.round ((coupon_rate - yield_to_maturity) * 10000) 0 ]}.

(** The base price the other operations read back: [price_bond(...)["price"]]. *)
Definition base_price (face_value coupon_rate yield_to_maturity
    years_to_maturity : Q) (coupon_frequency : Z) : Q :=
  Py.round (dcf_price face_value coupon_rate yield_to_maturity
              years_to_maturity coupon_frequency) 2.

(** The cash flow of a period (lines 61 and 94). *)
Definition cash_flow (c F : Q) (n t : Z) : Q :=
  c + (if (t =? n)%Z then F else 0).

(** Present value of the cash flows of periods [1..k]. *)
Fixpoint pv_sum (c F r : Q) (n : Z) (k : nat) : Q :=
  match k with
  | O => 0
  | S k' =>
      pv_sum c F r n k' + cash_flow c F n (Z.of_nat k) / (1 + r) ^ Z.of_nat k
  end.

(** Value of [weighted_cf_time] after periods [1..k]. *)
Fixpoint weighted_sum (c F r bp : Q) (n f : Z) (k : nat) : Q :=
  match k with
  | O => 0
  | S k' =>
      weighted_sum c F r bp n f k' +
      cash_flow c F n (Z.of_nat k) / (1 + r) ^ Z.of_nat k / bp *
      (inject_Z (Z.of_nat k) / inject_Z f)
  end.

(** Value of [convexity_sum] after periods [1..k]. *)
Fixpoint convexity_sum (c F r : Q) (n : Z) (k : nat) : Q :=
  match k with
  | O => 0
  | S k' =>
      convexity_sum c F r n k' +
      inject_Z (Z.of_nat k * (Z.of_nat k + 1)) *
      (cash_flow c F n (Z.of_nat k) / (1 + r) ^ Z.of_nat k)
  end.

(** The dictionary of lines 69-73 for a given [macaulay_duration]. *)
Definition duration_metrics (macaulay r bond_price : Q) : gmap string Q :=
  {[ "macaulay_duration" := Py.round macaulay 4;
     "modified_duration" := Py.round (macaulay / (1 + r)) 4;
     "approx_price_change_1bp" :=
       Py.round (- (macaulay / (1 + r)) * bond_price * 0.0001) 4 ]}.

(** The dictionary of lines 102-105 for a given [convexity]. *)
Definition convexity_metrics (convexity bond_price : Q) : gmap string Q :=
  {[ "convexity" := Py.round convexity 4;
     "convexity_adjustment_1bp" :=
       Py.round (0.5 * convexity * (0.0001 ^ 2) * bond_price) 6 ]}.

(** The dictionary of line 126 for the two prices read from the Pricer. *)
Definition dv01_metrics (price_base price_up face_value : Q) : gmap string Q :=
  {[ "dv01" := Py.round (Qabs (price_base - price_up)) 4;
     "dv01_per_100" :=
       Py.round (Qabs (price_base - price_up) / face_value * 100) 4 ]}.

(** The local [macaulay_duration] (line 65) and the local [convexity]
    (line 99) on a valid quote, before rounding. *)
Definition macaulay_unrounded (F cr y T : Q) (f : Z) : Q :=
  weighted_sum (coupon_payment F cr f) F (periodic_yield y f)
    (base_price F cr y T f) (n_periods T f) f (Z.to_nat (n_periods T f)).

Definition convexity_unrounded (F cr y T : Q) (f : Z) : Q :=
  convexity_sum (coupon_payment F cr f) F (periodic_yield y f)
    (n_periods T f) (Z.to_nat (n_periods T f))
  / (base_price F cr y T f * (1 + periodic_yield y f) ^ 2)
  / inject_Z (f ^ 2).

(** The merged dictionary of line 150. *)
Definition analytics_metrics (F cr y T : Q) (f : Z) : gmap string Q :=
  Py.merge
    (Py.merge
       (Py.merge (price_metrics (dcf_price F cr y T f) F cr y)
          (duration_metrics (macaulay_unrounded F cr y T f)
             (periodic_yield y f) (base_price F cr y T f)))
       (convexity_metrics (convexity_unrounded F cr y T f)
          (base_price F cr y T f)))
    (dv01_metrics (base_price F cr y T f) (base_price F cr (y + 0.0001) T f) F).

(** Present value of the level coupons of periods [1..k] alone. *)
Fixpoint annuity (c r : Q) (k : nat) : Q :=
  match k with
  | O => 0
  | S k' => annuity c r k' + c / (1 + r) ^ Z.of_nat k
  end.

(** The locals of [price_change_estimate] (lines 171-175). *)
Definition duration_effect (modified_duration current_price yield_change : Q) : Q :=
  - modified_duration * current_price * yield_change.

Definition convexity_effect (convexity current_price yield_change : Q)
    (include_convexity : bool) : Q :=
  if include_convexity then 0.5 * convexity * current_price * yield_change ^ 2
  else 0.

Definition estimated_new_price (current_price modified_duration convexity
    yield_change : Q) (include_convexity : bool) : Q :=
  current_price + duration_effect modified_duration current_price yield_change
  + convexity_effect convexity current_price yield_change include_convexity.

(** The dictionary of lines 185-192. *)
Definition estimate_metrics (current_price modified_duration convexity
    actual_new_price yield_change : Q) (include_convexity : bool)
    : gmap string Q :=
  {[ "current_price" := Py.round current_price 2;
     "estimated_new_price" :=
       Py.round (estimated_new_price current_price modified_duration convexity
                   yield_change include_convexity) 2;
     "actual_new_price" := Py.round actual_new_price 2;
     "estimation_error" :=
       Py.round (estimated_new_price current_price modified_duration convexity
                   yield_change include_convexity - actual_new_price) 4;
     "duration_effect" :=
       Py.round (duration_effect modified_duration current_price yield_change) 2;
     "convexity_effect" :=
       Py.round (convexity_effect convexity current_price yield_change
                   include_convexity) 4 ]}.

End Quantities.

(** ** Facts about the primitives *)

Section PrimitiveFacts.

Local Open Scope Q_scope.

Lemma ltb_true a b : Py.ltb a b = true <-> a < b.
Proof.
  unfold Py.ltb. rewrite negb_true_iff, <- not_true_iff_false, Qle_bool_iff.
  split; [apply Qnot_le_lt | apply Qlt_not_le].
Qed.

Lemma ltb_false a b : Py.ltb a b = false <-> b <= a.
Proof. unfold Py.ltb. rewrite negb_false_iff. apply Qle_bool_iff. Qed.

Lemma Qle_bool_false a b : Qle_bool a b = false <-> b < a.
Proof.
  rewrite <- not_true_iff_false, Qle_bool_iff.
  split; [apply Qnot_le_lt | apply Qlt_not_le].
Qed.

Lemma Qeq_bool_false a b : Qeq_bool a b = false <-> ~ a == b.
Proof. rewrite <- not_true_iff_false, Qeq_bool_iff. tauto. Qed.

Lemma div_ok a b : ~ b == 0 -> Py.div a b = Ok (a / b).
Proof. intros Hb. unfold Py.div. apply Qeq_bool_false in Hb. now rewrite Hb. Qed.

Lemma div_zero a b : b == 0 -> Py.div a b = Raise ZeroDivisionError.
Proof. intros Hb. unfold Py.div. apply Qeq_bool_iff in Hb. now rewrite Hb. Qed.

Lemma pow_ok x k : ~ x == 0 -> Py.pow x k = Ok (x ^ k).
Proof. intros Hx. unfold Py.pow. apply Qeq_bool_false in Hx. now rewrite Hx. Qed.

Lemma pow_nonneg_ok x k : (0 <= k)%Z -> Py.pow x k = Ok (x ^ k).
Proof.
  intros Hk. unfold Py.pow.
  replace (k <? 0)%Z with false by (symmetry; apply Z.ltb_ge; exact Hk).
  now rewrite andb_false_r.
Qed.

Lemma int_floor x : 0 <= x -> Py.int x = Qfloor x.
Proof.
  destruct x as [n d]. unfold Qle, Py.int, Qfloor. simpl. intros Hn.
  apply Z.quot_div_nonneg; lia.
Qed.

Lemma inject_Z_pos_neq0 (k : Z) : (0 < k)%Z -> ~ inject_Z k == 0.
Proof. unfold Qeq. simpl. lia. Qed.

#[global] Instance round_half_even_proper : Proper (Qeq ==> eq) Py.round_half_even.
Proof.
  intros x y Hxy. unfold Py.round_half_even.
  rewrite (Qfloor_comp _ _ Hxy).
  replace (x - inject_Z (Qfloor y) ?= 1 # 2) with (y - inject_Z (Qfloor y) ?= 1 # 2);
    [reflexivity |].
  apply Qcompare_comp; [now rewrite Hxy | reflexivity].
Qed.


Lemma round_half_even_mono x y :
  x <= y -> (Py.round_half_even x <= Py.round_half_even y)%Z.
Proof.
  intros Hxy. pose proof (Qfloor_resp_le _ _ Hxy) as Hf.
  unfold Py.round_half_even.
  pose proof (Qfloor_le x) as Hxl. pose proof (Qlt_floor x) as Hxh.
  pose proof (Qfloor_le y) as Hyl. pose proof (Qlt_floor y) as Hyh.
  rewrite inject_Z_plus in Hxh, Hyh. change (inject_Z 1) with 1 in Hxh, Hyh.
  destruct (Z.eq_dec (Qfloor x) (Qfloor y)) as [Heq | Hne].
  - rewrite Heq in *.
    destruct (Qcompare_spec (x - inject_Z (Qfloor y)) (1 # 2));
      destruct (Qcompare_spec (y - inject_Z (Qfloor y)) (1 # 2));
      destruct (Z.even (Qfloor y)); try lia; lra.
  - assert (Qfloor x + 1 <= Qfloor y)%Z by lia.
    destruct (Qcompare_spec (x - inject_Z (Qfloor x)) (1 # 2));
      destruct (Qcompare_spec (y - inject_Z (Qfloor y)) (1 # 2));
      destruct (Z.even (Qfloor x)); destruct (Z.even (Qfloor y)); lia.
Qed.

Lemma round_half_even_Z (k : Z) : Py.round_half_even (inject_Z k) = k.
Proof.
  unfold Py.round_half_even. rewrite Qfloor_Z.
  destruct (Qcompare_spec (inject_Z k - inject_Z k) (1 # 2)); try lra.
  reflexivity.
Qed.

Lemma pow10_pos (n : nat) : 0 < 10 ^ Z.of_nat n.
Proof. apply Qpower_0_lt. reflexivity. Qed.

#[global] Instance round_proper : Proper (Qeq ==> eq ==> Qeq) Py.round.
Proof.
  intros x y Hxy n ? <-. unfold Py.round. now rewrite Hxy.
Qed.

Lemma round_mono x y n : x <= y -> Py.round x n <= Py.round y n.
Proof.
  intros Hxy. unfold Py.round. pose proof (pow10_pos n) as Hp.
  apply Qmult_le_compat_r.
  - rewrite <- Zle_Qle. apply round_half_even_mono.
    apply Qmult_le_compat_r; [exact Hxy | lra].
  - apply Qlt_le_weak, Qinv_lt_0_compat, Hp.
Qed.

(** A number with at most [n] decimals is left unchanged by [round(_, n)]. *)
Lemma round_exact (k : Z) (n : nat) :
  Py.round (inject_Z k / 10 ^ Z.of_nat n) n == inject_Z k / 10 ^ Z.of_nat n.
Proof.
  unfold Py.round. pose proof (pow10_pos n) as Hp.
  assert (Hk : inject_Z k / 10 ^ Z.of_nat n * 10 ^ Z.of_nat n == inject_Z k)
    by (field; lra).
  now rewrite Hk, round_half_even_Z.
Qed.

Lemma round_0 n : Py.round 0 n == 0.
Proof.
  pose proof (round_exact 0 n) as H. pose proof (pow10_pos n) as Hp.
  assert (Hz : inject_Z 0 / 10 ^ Z.of_nat n == 0) by (field; lra).
  now rewrite Hz in H.
Qed.

Lemma round_nonneg x n : 0 <= x -> 0 <= Py.round x n.
Proof. intros Hx. rewrite <- (round_0 n). now apply round_mono. Qed.

(** [round(x, n)] has at most [n] decimals. *)
Lemma round_decimals x n :
  exists k : Z, Py.round x n = inject_Z k / 10 ^ Z.of_nat n.
Proof. now eexists. Qed.


End PrimitiveFacts.

(** ** The Pricer: validation and the discounted price *)

Section PricerFacts.

Local Open Scope Q_scope.

Lemma valid_not_invalid F cr y T f :
  valid_quote F cr y T f <-> ~ invalid_quote F cr y T f.
Proof.
  unfold valid_quote, invalid_quote. split.
  - intros (HF & HT & Hc & Hy & Hf) [H | [H | [H | [H | H]]]]; try lra.
    now apply H.
  - intros H. repeat split.
    + apply Qnot_le_lt. tauto.
    + apply Qnot_le_lt. tauto.
    + apply Qnot_lt_le. tauto.
    + apply Qnot_lt_le. tauto.
    + destruct (decide (frequency_ok f)); tauto.
Qed.

Lemma frequency_ok_pos f : frequency_ok f -> (0 < f)%Z.
Proof.
  unfold frequency_ok. rewrite !elem_of_cons, elem_of_nil. lia.
Qed.

Lemma frequency_ok_neq0 f : frequency_ok f -> ~ inject_Z f == 0.
Proof. intros Hf. now apply inject_Z_pos_neq0, frequency_ok_pos. Qed.

Lemma frequency_ok_Qpos f : frequency_ok f -> 0 < inject_Z f.
Proof.
  intros Hf%frequency_ok_pos. change 0 with (inject_Z 0). now rewrite <- Zlt_Qlt.
Qed.

Lemma periodic_yield_nonneg y f :
  0 <= y -> frequency_ok f -> 0 <= periodic_yield y f.
Proof.
  intros Hy Hf%frequency_ok_Qpos. unfold periodic_yield.
  apply Qle_shift_div_l; [exact Hf | lra].
Qed.

Lemma coupon_payment_nonneg F cr f :
  0 < F -> 0 <= cr -> frequency_ok f -> 0 <= coupon_payment F cr f.
Proof.
  intros HF Hc Hf%frequency_ok_Qpos. unfold coupon_payment.
  apply Qle_shift_div_l; [exact Hf |].
  rewrite Qmult_0_l. apply Qmult_le_0_compat; lra.
Qed.

Lemma n_periods_floor T f :
  0 < T -> frequency_ok f -> n_periods T f = Qfloor (T * inject_Z f).
Proof.
  intros HT Hf%frequency_ok_Qpos. apply int_floor.
  apply Qmult_le_0_compat; lra.
Qed.

Lemma n_periods_nonneg T f : 0 < T -> frequency_ok f -> (0 <= n_periods T f)%Z.
Proof.
  intros HT Hf. rewrite n_periods_floor by assumption.
  apply frequency_ok_Qpos in Hf.
  change 0%Z with (Qfloor 0). apply Qfloor_resp_le.
  apply Qmult_le_0_compat; lra.
Qed.

Lemma growth_pos y f k : 0 <= y -> frequency_ok f -> 0 < (1 + periodic_yield y f) ^ k.
Proof.
  intros Hy Hf. apply Qpower_0_lt.
  pose proof (periodic_yield_nonneg y f Hy Hf). lra.
Qed.

(** On a valid quote the Pricer never raises and returns the rounded
    discounted price. *)
Lemma price_bond_valid F cr y T f :
  valid_quote F cr y T f ->
  price_bond F cr y T f = Ok (price_metrics (dcf_price F cr y T f) F cr y).
Proof.
  intros (HF & HT & Hc & Hy & Hf). unfold price_bond.
  apply Qle_bool_false in HF as ->. apply Qle_bool_false in HT as ->.
  apply ltb_false in Hc as Hc'. apply ltb_false in Hy as Hy'.
  rewrite Hc', Hy'. rewrite (bool_decide_eq_true_2 _ Hf). cbn [orb negb].
  rewrite !(div_ok _ (inject_Z f)) by now apply frequency_ok_neq0.
  cbn [mbind result_bind].
  pose proof (periodic_yield_nonneg y f Hy Hf) as Hr.
  pose proof (growth_pos y f (Py.int (T * inject_Z f)) Hy Hf) as Hg.
  unfold periodic_yield in Hr, Hg.
  unfold dcf_price, n_periods, coupon_payment, periodic_yield.
  destruct (Qeq_bool cr 0) eqn:Ecr.
  - rewrite pow_ok by lra. cbn [mbind result_bind].
    rewrite div_ok by lra. reflexivity.
  - destruct (Qeq_bool (y / inject_Z f) 0) eqn:Er; [reflexivity |].
    rewrite !pow_ok by lra. cbn [mbind result_bind].
    apply Qeq_bool_false in Er.
    rewrite !div_ok by (try exact Er; lra). reflexivity.
Qed.

(** On every trigger the Pricer raises the invalid-argument error; nothing
    after line 19 is evaluated. *)
Lemma price_bond_invalid F cr y T f :
  invalid_quote F cr y T f -> is_value_error (price_bond F cr y T f).
Proof.
  unfold price_bond.
  destruct (Qle_bool F 0) eqn:EF; [intros _; exact I |].
  destruct (Qle_bool T 0) eqn:ET; [intros _; exact I |].
  destruct (Py.ltb cr 0) eqn:Ec; [intros _; exact I |].
  destruct (Py.ltb y 0) eqn:Ey; [intros _; exact I |].
  destruct (bool_decide (f ∈ [1; 2; 4; 12]%Z)) eqn:Ef; [| intros _; exact I].
  apply Qle_bool_false in EF, ET. apply ltb_false in Ec, Ey.
  apply bool_decide_eq_true_1 in Ef.
  intros [H | [H | [H | [H | H]]]]; exfalso.
  - now apply Qle_not_lt in H.
  - now apply Qle_not_lt in H.
  - now apply Qlt_not_le in H.
  - now apply Qlt_not_le in H.
  - now apply H.
Qed.

Lemma price_metrics_price p F cr y :
  Py.getitem (price_metrics p F cr y) "price" = Ok (Py.round p 2).
Proof. reflexivity. Qed.

End PricerFacts.

Ltac solve_frequency :=
  unfold frequency_ok; rewrite !elem_of_cons, elem_of_nil; lia.

Ltac solve_valid :=
  unfold valid_quote; repeat split; try lra; solve_frequency.

(** ** The period loops of the duration and convexity calculators *)

Section Loops.

Local Open Scope Q_scope.

Lemma bind_ok {A B} (a : A) (k : A -> result B) : (Ok a ≫= k) = k a.
Proof. reflexivity. Qed.

Lemma bind_raise {A B} (e : exn) (k : A -> result B) : (Raise e ≫= k) = Raise e.
Proof. reflexivity. Qed.

Lemma for_each_app {A S} (xs ys : list A) (body : A -> S -> result S) acc :
  Py.for_each (xs ++ ys) body acc =
  Py.for_each xs body acc ≫= Py.for_each ys body.
Proof.
  revert acc. induction xs as [| x xs IH]; intros acc; [reflexivity |].
  cbn [app Py.for_each]. destruct (body x acc); [apply IH | reflexivity].
Qed.

Lemma range_periods (n : Z) : Py.range 1 (n + 1) = seqZ 1 n.
Proof. unfold Py.range. f_equal. lia. Qed.

Lemma periods_snoc (k : nat) :
  seqZ 1 (Z.of_nat (S k)) = seqZ 1 (Z.of_nat k) ++ [Z.of_nat (S k)].
Proof. rewrite seqZ_S. do 2 f_equal. lia. Qed.

Lemma duration_step_ok c F r bp n f t w :
  0 <= r -> ~ bp == 0 -> ~ inject_Z f == 0 ->
  duration_step F c r bp n f t w =
  Ok (w + cash_flow c F n t / (1 + r) ^ t / bp * (inject_Z t / inject_Z f)).
Proof.
  intros Hr Hbp Hf. unfold duration_step.
  rewrite (div_ok _ _ Hf), bind_ok, pow_ok, bind_ok by lra.
  assert (0 < (1 + r) ^ t) by (apply Qpower_0_lt; lra).
  rewrite div_ok, bind_ok by lra. now rewrite (div_ok _ _ Hbp), bind_ok.
Qed.


Lemma duration_loop_ok c F r bp n f (k : nat) :
  0 <= r -> ~ bp == 0 -> ~ inject_Z f == 0 ->
  Py.for_each (seqZ 1 (Z.of_nat k)) (duration_step F c r bp n f) 0 =
  Ok (weighted_sum c F r bp n f k).
Proof.
  intros Hr Hbp Hf. induction k as [| k IH]; [reflexivity |].
  rewrite periods_snoc, for_each_app, IH, bind_ok. cbn [Py.for_each].
  now rewrite duration_step_ok.
Qed.


Lemma convexity_step_ok c F r n t s :
  0 <= r ->
  convexity_step F c r n t s =
  Ok (s + inject_Z (t * (t + 1)) * (cash_flow c F n t / (1 + r) ^ t)).
Proof.
  intros Hr. unfold convexity_step.
  rewrite pow_ok, bind_ok by lra.
  assert (0 < (1 + r) ^ t) by (apply Qpower_0_lt; lra).
  now rewrite div_ok, bind_ok by lra.
Qed.

Lemma convexity_loop_ok c F r n (k : nat) :
  0 <= r ->
  Py.for_each (seqZ 1 (Z.of_nat k)) (convexity_step F c r n) 0 =
  Ok (convexity_sum c F r n k).
Proof.
  intros Hr. induction k as [| k IH]; [reflexivity |].
  rewrite periods_snoc, for_each_app, IH, bind_ok. cbn [Py.for_each].
  now rewrite convexity_step_ok.
Qed.

End Loops.

(** ** What each operation returns on a valid quote *)

Section Operations.

Local Open Scope Q_scope.

Lemma valid_bump F cr y T f dy :
  valid_quote F cr y T f -> 0 <= y + dy -> valid_quote F cr (y + dy) T f.
Proof. unfold valid_quote. tauto. Qed.

Lemma calculate_duration_valid F cr y T f :
  valid_quote F cr y T f ->
  ~ base_price F cr y T f == 0 \/ n_periods T f = 0%Z ->
  calculate_duration F cr y T f =
  Ok (duration_metrics (macaulay_unrounded F cr y T f) (periodic_yield y f)
        (base_price F cr y T f)).
Proof.
  intros Hv Hbp. pose proof Hv as (HF & HT & Hc & Hy & Hf).
  unfold calculate_duration.
  rewrite (price_bond_valid _ _ _ _ _ Hv), bind_ok, price_metrics_price, bind_ok.
  cbv zeta. rewrite range_periods.
  rewrite !(div_ok _ (inject_Z f)) by now apply frequency_ok_neq0.
  rewrite !bind_ok.
  pose proof (periodic_yield_nonneg y f Hy Hf) as Hr.
  pose proof (n_periods_nonneg T f HT Hf) as Hn.
  fold (periodic_yield y f) (coupon_payment F cr f) (n_periods T f)
    (base_price F cr y T f).
  assert (Hloop :
    Py.for_each (seqZ 1 (n_periods T f))
      (duration_step F (coupon_payment F cr f) (periodic_yield y f)
         (base_price F cr y T f) (n_periods T f) f) 0 =
    Ok (macaulay_unrounded F cr y T f)).
  { unfold macaulay_unrounded. destruct Hbp as [Hbp | Hz].
    - rewrite <- (Z2Nat.id (n_periods T f)) at 1 by exact Hn.
      apply duration_loop_ok; [exact Hr | exact Hbp | now apply frequency_ok_neq0].
    - rewrite Hz. reflexivity. }
  rewrite Hloop, !bind_ok, div_ok, bind_ok by lra. reflexivity.
Qed.


Lemma square_frequency_neq0 f : frequency_ok f -> ~ inject_Z (f ^ 2) == 0.
Proof. intros Hf%frequency_ok_pos. apply inject_Z_pos_neq0. nia. Qed.

Lemma calculate_convexity_valid F cr y T f :
  valid_quote F cr y T f ->
  ~ base_price F cr y T f == 0 ->
  calculate_convexity F cr y T f =
  Ok (convexity_metrics (convexity_unrounded F cr y T f) (base_price F cr y T f)).
Proof.
  intros Hv Hbp. pose proof Hv as (HF & HT & Hc & Hy & Hf).
  unfold calculate_convexity.
  rewrite (price_bond_valid _ _ _ _ _ Hv), bind_ok, price_metrics_price, bind_ok.
  cbv zeta. rewrite range_periods.
  rewrite !(div_ok _ (inject_Z f)) by now apply frequency_ok_neq0.
  rewrite !bind_ok.
  pose proof (periodic_yield_nonneg y f Hy Hf) as Hr.
  pose proof (n_periods_nonneg T f HT Hf) as Hn.
  pose proof (growth_pos y f 2 Hy Hf) as Hg.
  fold (periodic_yield y f) (coupon_payment F cr f) (n_periods T f)
    (base_price F cr y T f).
  rewrite <- (Z2Nat.id (n_periods T f)) at 1 by exact Hn.
  rewrite convexity_loop_ok, bind_ok by exact Hr.
  rewrite pow_ok, bind_ok by lra.
  rewrite div_ok, bind_ok.
  - rewrite div_ok, bind_ok by now apply square_frequency_neq0. reflexivity.
  - intros Hz. apply Qmult_integral in Hz as [Hz | Hz]; [now apply Hbp | lra].
Qed.

Lemma calculate_convexity_zero_price F cr y T f :
  valid_quote F cr y T f ->
  base_price F cr y T f == 0 ->
  calculate_convexity F cr y T f = Raise ZeroDivisionError.
Proof.
  intros Hv Hbp. pose proof Hv as (HF & HT & Hc & Hy & Hf).
  unfold calculate_convexity.
  rewrite (price_bond_valid _ _ _ _ _ Hv), bind_ok, price_metrics_price, bind_ok.
  cbv zeta. rewrite range_periods.
  rewrite !(div_ok _ (inject_Z f)) by now apply frequency_ok_neq0.
  rewrite !bind_ok.
  pose proof (periodic_yield_nonneg y f Hy Hf) as Hr.
  pose proof (n_periods_nonneg T f HT Hf) as Hn.
  fold (periodic_yield y f) (coupon_payment F cr f) (n_periods T f)
    (base_price F cr y T f).
  rewrite <- (Z2Nat.id (n_periods T f)) at 1 by exact Hn.
  rewrite convexity_loop_ok, bind_ok by exact Hr.
  rewrite pow_ok, bind_ok by lra.
  rewrite div_zero; [reflexivity |]. rewrite Hbp. ring.
Qed.

Lemma calculate_dv01_valid F cr y T f :
  valid_quote F cr y T f ->
  calculate_dv01 F cr y T f =
  Ok (dv01_metrics (base_price F cr y T f)
        (base_price F cr (y + 0.0001) T f) F).
Proof.
  intros Hv. pose proof Hv as (HF & HT & Hc & Hy & Hf).
  assert (Hv' : valid_quote F cr (y + 0.0001) T f)
    by (apply valid_bump; [exact Hv | lra]).
  unfold calculate_dv01.
  rewrite (price_bond_valid _ _ _ _ _ Hv), bind_ok, price_metrics_price, bind_ok.
  rewrite (price_bond_valid _ _ _ _ _ Hv'), bind_ok, price_metrics_price, bind_ok.
  rewrite div_ok, bind_ok by lra. reflexivity.
Qed.

Lemma bond_analytics_valid F cr y T f :
  valid_quote F cr y T f ->
  ~ base_price F cr y T f == 0 ->
  bond_analytics F cr y T f = Ok (analytics_metrics F cr y T f).
Proof.
  intros Hv Hbp. unfold bond_analytics.
  rewrite (price_bond_valid _ _ _ _ _ Hv), bind_ok.
  rewrite calculate_duration_valid, bind_ok by tauto.
  rewrite calculate_convexity_valid, bind_ok by assumption.
  rewrite calculate_dv01_valid, bind_ok by assumption. reflexivity.
Qed.


End Operations.

(** ** Arithmetic of the cash-flow schedule *)

Section CashFlows.

Local Open Scope Q_scope.

Variables c F r : Q.
Variable n : Z.
Hypothesis Hc : 0 <= c.
Hypothesis HF : 0 < F.
Hypothesis Hr : 0 <= r.

Lemma discount_pos (t : Z) : 0 < (1 + r) ^ t.
Proof. apply Qpower_0_lt. lra. Qed.

Lemma discount_succ (k : nat) :
  (1 + r) ^ Z.of_nat (S k) == (1 + r) ^ Z.of_nat k * (1 + r).
Proof.
  rewrite Nat2Z.inj_succ. unfold Z.succ.
  rewrite Qpower_plus by lra. now rewrite Qpower_1_r.
Qed.

Lemma cash_flow_nonneg (t : Z) : 0 <= cash_flow c F n t.
Proof. unfold cash_flow. destruct (t =? n)%Z; lra. Qed.

Lemma pv_term_nonneg (t : Z) : 0 <= cash_flow c F n t / (1 + r) ^ t.
Proof.
  apply Qle_shift_div_l; [apply discount_pos |].
  rewrite Qmult_0_l. apply cash_flow_nonneg.
Qed.


Lemma convexity_sum_nonneg (k : nat) : 0 <= convexity_sum c F r n k.
Proof.
  induction k as [| k IH]; [cbn; lra |].
  cbn [convexity_sum]. pose proof (pv_term_nonneg (Z.of_nat (S k))) as Hpv.
  assert (Hw : 0 <= inject_Z (Z.of_nat (S k) * (Z.of_nat (S k) + 1))).
  { change 0 with (inject_Z 0). rewrite <- Zle_Qle. nia. }
  pose proof (Qmult_le_0_compat _ _ Hw Hpv). lra.
Qed.

Lemma annuity_nonneg (k : nat) : 0 <= annuity c r k.
Proof.
  induction k as [| k IH]; [cbn; lra |].
  cbn [annuity].
  assert (0 <= c / (1 + r) ^ Z.of_nat (S k)).
  { apply Qle_shift_div_l; [apply discount_pos | lra]. }
  lra.
Qed.

Lemma annuity_zero_coupon (k : nat) : c == 0 -> annuity c r k == 0.
Proof.
  intros Hz. induction k as [| k IH]; [reflexivity |].
  cbn [annuity]. rewrite IH, Hz. pose proof (discount_pos (Z.of_nat (S k))).
  field. lra.
Qed.

Lemma annuity_flat (k : nat) : r == 0 -> annuity c r k == c * inject_Z (Z.of_nat k).
Proof.
  intros Hz. induction k as [| k IH]; [cbn; ring |].
  cbn [annuity]. rewrite IH.
  assert (Hone : (1 + r) ^ Z.of_nat (S k) == 1).
  { assert (H1 : 1 + r == 1) by lra. rewrite H1. apply Qpower_1. }
  rewrite Hone, Nat2Z.inj_succ. unfold Z.succ. rewrite inject_Z_plus.
  change (inject_Z 1) with 1. field.
Qed.

Lemma annuity_closed (k : nat) :
  annuity c r k * r == c * (1 - (1 + r) ^ (- Z.of_nat k)).
Proof.
  induction k as [| k IH]; [change (0 * r == c * (1 - 1)); ring |].
  cbn [annuity]. rewrite Qpower_opp in *. rewrite discount_succ.
  pose proof (discount_pos (Z.of_nat k)) as Hp.
  set (p := (1 + r) ^ Z.of_nat k) in *.
  assert (Hstep : (annuity c r k + c / (p * (1 + r))) * r ==
                  annuity c r k * r + c * r / (p * (1 + r))) by (field; lra).
  rewrite Hstep, IH. field. lra.
Qed.

(** The loop's cash flows are the level coupons plus the redemption at
    period [n]. *)
Lemma pv_sum_before (k : nat) :
  (Z.of_nat k < n)%Z -> pv_sum c F r n k == annuity c r k.
Proof.
  induction k as [| k IH]; intros Hk; [reflexivity |].
  cbn [pv_sum annuity]. rewrite IH by lia. unfold cash_flow.
  replace (Z.of_nat (S k) =? n)%Z with false by (symmetry; apply Z.eqb_neq; lia).
  pose proof (discount_pos (Z.of_nat (S k))). field. lra.
Qed.

Lemma pv_sum_maturity (k : nat) :
  n = Z.of_nat (S k) ->
  pv_sum c F r n (S k) == annuity c r (S k) + F / (1 + r) ^ n.
Proof.
  intros Hn. cbn [pv_sum annuity]. rewrite pv_sum_before by lia.
  unfold cash_flow. rewrite <- Hn, Z.eqb_refl.
  pose proof (discount_pos n). field. lra.
Qed.

Lemma pv_sum_pos (k : nat) : n = Z.of_nat (S k) -> 0 < pv_sum c F r n (S k).
Proof.
  intros Hn. rewrite (pv_sum_maturity k Hn).
  pose proof (annuity_nonneg (S k)). pose proof (discount_pos n) as Hp.
  assert (0 < F / (1 + r) ^ n) by (apply Qlt_shift_div_l; [exact Hp | lra]).
  lra.
Qed.



End CashFlows.

(** ** The discounted price is the present value of the schedule *)

Section PriceIsPresentValue.

Local Open Scope Q_scope.

Lemma dcf_price_no_period F cr y T f :
  valid_quote F cr y T f -> n_periods T f = 0%Z ->
  dcf_price F cr y T f == F.
Proof.
  intros (HF & HT & Hc & Hy & Hf) Hn. unfold dcf_price. rewrite Hn.
  cbv zeta. change (- 0)%Z with 0%Z.
  change ((1 + periodic_yield y f) ^ 0) with 1.
  destruct (Qeq_bool cr 0); [field |].
  destruct (Qeq_bool (periodic_yield y f) 0) eqn:Er; [change (inject_Z 0) with 0; ring |].
  apply Qeq_bool_false in Er. field. exact Er.
Qed.

Lemma pv_sum_dcf_price F cr y T f :
  valid_quote F cr y T f -> (0 < n_periods T f)%Z ->
  pv_sum (coupon_payment F cr f) F (periodic_yield y f) (n_periods T f)
    (Z.to_nat (n_periods T f)) == dcf_price F cr y T f.
Proof.
  intros (HF & HT & Hc & Hy & Hf) Hn.
  pose proof (periodic_yield_nonneg y f Hy Hf) as Hr.
  pose proof (coupon_payment_nonneg F cr f HF Hc Hf) as Hcp.
  destruct (Z.to_nat (n_periods T f)) as [| m] eqn:Em; [lia |].
  assert (Hnm : n_periods T f = Z.of_nat (S m)) by lia.
  rewrite (pv_sum_maturity _ _ _ _ Hr m Hnm).
  pose proof (discount_pos (periodic_yield y f) Hr (n_periods T f)) as Hp.
  unfold dcf_price. cbv zeta.
  destruct (Qeq_bool cr 0) eqn:Ecr.
  - apply Qeq_bool_iff in Ecr.
    rewrite annuity_zero_coupon; [ring | exact Hr |].
    unfold coupon_payment. rewrite Ecr. field. now apply frequency_ok_neq0.
  - destruct (Qeq_bool (periodic_yield y f) 0) eqn:Er.
    + apply Qeq_bool_iff in Er. rewrite (annuity_flat _ _ Hr (S m) Er), <- Hnm.
      assert (Hone : (1 + periodic_yield y f) ^ n_periods T f == 1).
      { assert (H1 : 1 + periodic_yield y f == 1) by lra.
        rewrite H1. apply Qpower_1. }
      rewrite Hone. field.
    + apply Qeq_bool_false in Er.
      pose proof (annuity_closed (coupon_payment F cr f) _ Hr (S m)) as Ha.
      rewrite <- Hnm in Ha. rewrite <- Ha. field. split; [lra | exact Er].
Qed.

Lemma dcf_price_pos F cr y T f :
  valid_quote F cr y T f -> 0 < dcf_price F cr y T f.
Proof.
  intros Hv. pose proof Hv as (HF & HT & Hc & Hy & Hf).
  pose proof (n_periods_nonneg T f HT Hf) as Hn.
  destruct (Z.eq_dec (n_periods T f) 0%Z) as [Hz | Hnz].
  - rewrite dcf_price_no_period by assumption. exact HF.
  - rewrite <- pv_sum_dcf_price by (try assumption; lia).
    destruct (Z.to_nat (n_periods T f)) as [| m] eqn:Em; [lia |].
    apply pv_sum_pos; try lia; try assumption.
    + now apply coupon_payment_nonneg.
    + now apply periodic_yield_nonneg.
Qed.

Lemma base_price_nonneg F cr y T f :
  valid_quote F cr y T f -> 0 <= base_price F cr y T f.
Proof.
  intros Hv. apply round_nonneg, Qlt_le_weak. now apply dcf_price_pos.
Qed.


End PriceIsPresentValue.

(** ** Reading the merged analytics and the scenario estimate *)

Section Scenario.

Local Open Scope Q_scope.

Lemma analytics_price F cr y T f :
  analytics_metrics F cr y T f !! "price" = Some (base_price F cr y T f).
Proof. reflexivity. Qed.

Lemma analytics_modified_duration F cr y T f :
  analytics_metrics F cr y T f !! "modified_duration" =
  Some (Py.round (macaulay_unrounded F cr y T f / (1 + periodic_yield y f)) 4).
Proof. reflexivity. Qed.

Lemma analytics_convexity F cr y T f :
  analytics_metrics F cr y T f !! "convexity" =
  Some (Py.round (convexity_unrounded F cr y T f) 4).
Proof. reflexivity. Qed.

Lemma getitem_some (d : gmap string Q) key v :
  d !! key = Some v -> Py.getitem d key = Ok v.
Proof. intros H. unfold Py.getitem. now rewrite H. Qed.

(** Everything [price_change_estimate] does once the Aggregator has
    returned. *)
Lemma price_change_estimate_after_analytics F cr y T dy f incl analytics cur md cx :
  bond_analytics F cr y T f = Ok analytics ->
  analytics !! "price" = Some cur ->
  analytics !! "modified_duration" = Some md ->
  analytics !! "convexity" = Some cx ->
  price_change_estimate F cr y T dy f incl =
  price_bond F cr (y + dy) T f ≫= fun pm =>
  Py.getitem pm "price" ≫= fun act =>
  Ok (estimate_metrics cur md cx act dy incl).
Proof.
  intros Ha Hcur Hmd Hcx. unfold price_change_estimate.
  rewrite Ha, bind_ok.
  rewrite (getitem_some _ _ _ Hcur), (getitem_some _ _ _ Hmd),
    (getitem_some _ _ _ Hcx), !bind_ok.
  destruct incl.
  - rewrite pow_nonneg_ok, bind_ok by lia. reflexivity.
  - rewrite bind_ok. reflexivity.
Qed.

Lemma price_change_estimate_valid F cr y T dy f incl :
  valid_quote F cr y T f ->
  ~ base_price F cr y T f == 0 ->
  0 <= y + dy ->
  price_change_estimate F cr y T dy f incl =
  Ok (estimate_metrics (base_price F cr y T f)
        (Py.round (macaulay_unrounded F cr y T f / (1 + periodic_yield y f)) 4)
        (Py.round (convexity_unrounded F cr y T f) 4)
        (base_price F cr (y + dy) T f) dy incl).
Proof.
  intros Hv Hbp Hdy.
  rewrite (price_change_estimate_after_analytics F cr y T dy f incl _ _ _ _
             (bond_analytics_valid _ _ _ _ _ Hv Hbp)
             (analytics_price _ _ _ _ _)
             (analytics_modified_duration _ _ _ _ _)
             (analytics_convexity _ _ _ _ _)).
  rewrite (price_bond_valid _ _ _ _ _ (valid_bump _ _ _ _ _ _ Hv Hdy)), bind_ok.
  now rewrite price_metrics_price, bind_ok.
Qed.







Lemma price_bond_ok_valid F cr y T f pm :
  price_bond F cr y T f = Ok pm -> valid_quote F cr y T f.
Proof.
  intros H. apply valid_not_invalid. intros Hinv%price_bond_invalid.
  now rewrite H in Hinv.
Qed.


End Scenario.

(** ** Validation (C1) *)

Section Validation.

Local Open Scope Q_scope.









(** The check precedes the arithmetic: with [coupon_frequency = 0] the
    divisions by the frequency would raise a division by zero, and with
    [face_value = 0] the base price would be zero, yet the error is the
    invalid-argument one. *)
Example zero_frequency_is_invalid_argument :
  price_bond 1000 0.05 0.05 10 0 =
    Raise (ValueError "Frequency must be 1, 2, 4, or 12") /\
  calculate_convexity 0 0.05 0.05 10 2 =
    Raise (ValueError "Face value and maturity must be positive").
Proof. split; reflexivity. Qed.

End Validation.

(** ** The Pricer's outputs (C2, C6) *)

Section PricerClaims.

Local Open Scope Q_scope.



(** C6.  On a valid quote the [price] and [dirty_price] fields are the same
    number. *)
Theorem price_equals_dirty_price F cr y T f :
  valid_quote F cr y T f ->
  exists pm p,
    price_bond F cr y T f = Ok pm /\
    pm !! "price" = Some p /\ pm !! "dirty_price" = Some p.
Proof.
  intros Hv. do 2 eexists. split; [now apply price_bond_valid |].
  split; reflexivity.
Qed.

Lemma price_equals_dirty_price_witness :
  valid_quote 1000 0.05 0.04 10 2 /\
  exists pm p,
    price_bond 1000 0.05 0.04 10 2 = Ok pm /\
    pm !! "price" = Some p /\ pm !! "dirty_price" = Some p.
Proof.
  assert (Hv : valid_quote 1000 0.05 0.04 10 2) by solve_valid.
  split; [exact Hv |].
  exact (price_equals_dirty_price 1000 0.05 0.04 10 2 Hv).
Defined.

End PricerClaims.

(** ** DV01 (C3) *)

Section Dv01Claims.

Local Open Scope Q_scope.





(** The finite difference is not the duration estimate: for the 10-year 5%
    par bond the DV01 is 0.78 while the first-order estimate of the duration
    calculator is -0.7795. *)
Example dv01_differs_from_duration_estimate :
  exists m dm v a,
    calculate_dv01 1000 0.05 0.05 10 2 = Ok m /\ m !! "dv01" = Some v /\
    calculate_duration 1000 0.05 0.05 10 2 = Ok dm /\
    dm !! "approx_price_change_1bp" = Some a /\
    v == 0.78 /\ a == -0.7795.
Proof.
  assert (Hv : valid_quote 1000 0.05 0.05 10 2) by solve_valid.
  do 4 eexists. split; [now apply calculate_dv01_valid |].
  split; [reflexivity |].
  split; [apply calculate_duration_valid;
          [exact Hv | left; vm_compute; discriminate] |].
  split; [reflexivity |]. split; vm_compute; reflexivity.
Qed.

End Dv01Claims.

(** ** The scenario estimator (C4, C9) *)

Section ScenarioClaims.

Local Open Scope Q_scope.






End ScenarioClaims.

(** ** A zero base price (C5) *)

Section DegenerateClaims.

Local Open Scope Q_scope.




End DegenerateClaims.

(** ** Bounds on duration and convexity (C7, C8) *)

Section SensitivityClaims.

Local Open Scope Q_scope.









End SensitivityClaims.

(** ** Less than one coupon period (C10) *)

Section ShortMaturityClaims.

Local Open Scope Q_scope.





End ShortMaturityClaims.

(** * Further properties of the six operations *)

(** ** The price as a function of the yield and of the coupon *)

Section PriceOrder.

Local Open Scope Q_scope.

Lemma Qdiv_le_antitone a u v : 0 <= a -> 0 < u -> u <= v -> a / v <= a / u.
Proof.
  intros Ha Hu Huv. apply Qle_shift_div_l; [exact Hu |].
  assert (Hv : 0 < v) by lra.
  assert (Hq : a / v * u == a * (u / v)) by (field; lra).
  rewrite Hq.
  assert (Hr : u / v <= 1) by (apply Qle_shift_div_r; lra).
  assert (H0 : 0 <= u / v).
  { apply Qle_shift_div_l; [exact Hv | lra]. }
  nra.
Qed.

Lemma discount_mono r r' (k : nat) :
  0 <= r -> r <= r' -> (1 + r) ^ Z.of_nat k <= (1 + r') ^ Z.of_nat k.
Proof.
  intros Hr Hrr. assert (Hr' : 0 <= r') by lra.
  induction k as [| k IH]; [apply Qle_refl |].
  rewrite !discount_succ by assumption.
  pose proof (discount_pos r Hr (Z.of_nat k)) as Hp.
  pose proof (discount_pos r' Hr' (Z.of_nat k)) as Hp'.
  nra.
Qed.

Lemma pv_sum_antitone_yield c F r r' n (k : nat) :
  0 <= c -> 0 < F -> 0 <= r -> r <= r' ->
  pv_sum c F r' n k <= pv_sum c F r n k.
Proof.
  intros Hc HF Hr Hrr. induction k as [| k IH]; [apply Qle_refl |].
  cbn [pv_sum].
  assert (Hterm : cash_flow c F n (Z.of_nat (S k)) / (1 + r') ^ Z.of_nat (S k)
                  <= cash_flow c F n (Z.of_nat (S k)) / (1 + r) ^ Z.of_nat (S k)).
  { apply Qdiv_le_antitone.
    - now apply cash_flow_nonneg.
    - now apply discount_pos.
    - now apply discount_mono. }
  lra.
Qed.

Lemma cash_flow_mono c c' F n t : c <= c' -> cash_flow c F n t <= cash_flow c' F n t.
Proof. intros Hcc. unfold cash_flow. destruct (t =? n)%Z; lra. Qed.

Lemma pv_sum_mono_coupon c c' F r n (k : nat) :
  0 <= r -> c <= c' -> pv_sum c F r n k <= pv_sum c' F r n k.
Proof.
  intros Hr Hcc. induction k as [| k IH]; [apply Qle_refl |].
  cbn [pv_sum].
  pose proof (discount_pos r Hr (Z.of_nat (S k))) as Hp.
  pose proof (cash_flow_mono c c' F n (Z.of_nat (S k)) Hcc) as Hcf.
  assert (Hterm : cash_flow c F n (Z.of_nat (S k)) / (1 + r) ^ Z.of_nat (S k)
                  <= cash_flow c' F n (Z.of_nat (S k)) / (1 + r) ^ Z.of_nat (S k)).
  { unfold Qdiv. apply Qmult_le_compat_r; [exact Hcf |].
    apply Qlt_le_weak, Qinv_lt_0_compat, Hp. }
  lra.
Qed.

Lemma periodic_yield_mono y y' f :
  frequency_ok f -> y <= y' -> periodic_yield y f <= periodic_yield y' f.
Proof.
  intros Hf%frequency_ok_Qpos Hyy. unfold periodic_yield, Qdiv.
  apply Qmult_le_compat_r; [exact Hyy |].
  apply Qlt_le_weak, Qinv_lt_0_compat, Hf.
Qed.

Lemma coupon_payment_mono F cr cr' f :
  0 < F -> frequency_ok f -> cr <= cr' ->
  coupon_payment F cr f <= coupon_payment F cr' f.
Proof.
  intros HF Hf%frequency_ok_Qpos Hcc. unfold coupon_payment, Qdiv.
  apply Qmult_le_compat_r; [| apply Qlt_le_weak, Qinv_lt_0_compat, Hf].
  nra.
Qed.

(** The unrounded price does not rise with the yield. *)
Lemma dcf_price_antitone_yield F cr y y' T f :
  valid_quote F cr y T f -> y <= y' ->
  dcf_price F cr y' T f <= dcf_price F cr y T f.
Proof.
  intros Hv Hyy. pose proof Hv as (HF & HT & Hc & Hy & Hf).
  assert (Hv' : valid_quote F cr y' T f) by (unfold valid_quote; repeat split; try assumption; lra).
  pose proof (n_periods_nonneg T f HT Hf) as Hn.
  destruct (Z.eq_dec (n_periods T f) 0%Z) as [Hz | Hnz].
  - rewrite !dcf_price_no_period by assumption. apply Qle_refl.
  - rewrite <- !pv_sum_dcf_price by (try assumption; lia).
    apply pv_sum_antitone_yield; try assumption.
    + now apply coupon_payment_nonneg.
    + now apply periodic_yield_nonneg.
    + now apply periodic_yield_mono.
Qed.

(** The unrounded price does not fall with the coupon rate. *)
Lemma dcf_price_mono_coupon F cr cr' y T f :
  valid_quote F cr y T f -> cr <= cr' ->
  dcf_price F cr y T f <= dcf_price F cr' y T f.
Proof.
  intros Hv Hcc. pose proof Hv as (HF & HT & Hc & Hy & Hf).
  assert (Hv' : valid_quote F cr' y T f) by (unfold valid_quote; repeat split; try assumption; lra).
  pose proof (n_periods_nonneg T f HT Hf) as Hn.
  destruct (Z.eq_dec (n_periods T f) 0%Z) as [Hz | Hnz].
  - rewrite !dcf_price_no_period by assumption. apply Qle_refl.
  - rewrite <- !pv_sum_dcf_price by (try assumption; lia).
    apply pv_sum_mono_coupon.
    + now apply periodic_yield_nonneg.
    + now apply coupon_payment_mono.
Qed.

(** Equal yields (as numbers) give equal unrounded prices. *)
Lemma dcf_price_yield_eq F cr y y' T f :
  valid_quote F cr y T f -> y == y' ->
  dcf_price F cr y' T f == dcf_price F cr y T f.
Proof.
  intros Hv Heq. pose proof Hv as (HF & HT & Hc & Hy & Hf).
  assert (Hv' : valid_quote F cr y' T f) by (unfold valid_quote; repeat split; try assumption; lra).
  apply Qle_antisym.
  - apply dcf_price_antitone_yield; [exact Hv | lra].
  - apply dcf_price_antitone_yield; [exact Hv' | lra].
Qed.


End PriceOrder.

(** ** Which inputs return, and which exception the others raise *)

Section Outcomes.

Local Open Scope Q_scope.


Lemma value_error_not_returns {A} (r : result A) : is_value_error r -> ~ returns r.
Proof. destruct r as [a | e]; [intros [] | intros _ []]. Qed.

Lemma value_error_not_zero_division {A} (r : result A) :
  is_value_error r -> r <> Raise ZeroDivisionError.
Proof. intros H ->. exact H. Qed.

(** X1.  The three checks of the Pricer are tried in order and the first one
    that fails decides the message: face value or maturity, then the two
    rates, then the frequency. *)
Theorem price_bond_error_precedence (F cr y T : Q) (f : Z) :
  (F <= 0 \/ T <= 0 ->
     price_bond F cr y T f =
       Raise (ValueError "Face value and maturity must be positive")) /\
  (0 < F -> 0 < T -> cr < 0 \/ y < 0 ->
     price_bond F cr y T f = Raise (ValueError "Rates cannot be negative")) /\
  (0 < F -> 0 < T -> 0 <= cr -> 0 <= y -> ~ frequency_ok f ->
     price_bond F cr y T f =
       Raise (ValueError "Frequency must be 1, 2, 4, or 12")).
Proof.
  split; [| split].
  - intros H. unfold price_bond.
    assert (Hb : Qle_bool F 0 || Qle_bool T 0 = true).
    { apply orb_true_iff. rewrite !Qle_bool_iff. exact H. }
    now rewrite Hb.
  - intros HF HT H. unfold price_bond.
    apply Qle_bool_false in HF as ->. apply Qle_bool_false in HT as ->.
    assert (Hb : Py.ltb cr 0 || Py.ltb y 0 = true).
    { apply orb_true_iff. rewrite !ltb_true. exact H. }
    cbn [orb]. now rewrite Hb.
  - intros HF HT Hc Hy Hf. unfold price_bond.
    apply Qle_bool_false in HF as ->. apply Qle_bool_false in HT as ->.
    apply ltb_false in Hc as ->. apply ltb_false in Hy as ->.
    cbn [orb]. now rewrite (bool_decide_eq_false_2 _ Hf).
Qed.

Lemma price_bond_error_precedence_witness :
  (0 <= 0 \/ 10 <= 0) /\
  price_bond 0 (-0.05) 0.05 10 3 =
    Raise (ValueError "Face value and maturity must be positive") /\
  price_bond 1000 (-0.05) 0.05 10 3 = Raise (ValueError "Rates cannot be negative").
Proof.
  assert (H1 : 0 <= 0 \/ 10 <= 0) by (left; apply Qle_refl).
  assert (HF : 0 < 1000) by reflexivity.
  assert (HT : 0 < 10) by reflexivity.
  assert (H2 : -0.05 < 0 \/ 0.05 < 0) by (left; reflexivity).
  split; [exact H1 |]. split.
  - exact (proj1 (price_bond_error_precedence 0 (-0.05) 0.05 10 3) H1).
  - exact (proj1 (proj2 (price_bond_error_precedence 1000 (-0.05) 0.05 10 3))
             HF HT H2).
Defined.







End Outcomes.

(** ** How the price moves *)

Section PriceProperties.

Local Open Scope Q_scope.

Lemma round_nonpos x n : x <= 0 -> Py.round x n <= 0.
Proof. intros Hx. rewrite <- (round_0 n). now apply round_mono. Qed.

Lemma round_idempotent x n : Py.round (Py.round x n) n == Py.round x n.
Proof. destruct (round_decimals x n) as [k ->]. apply round_exact. Qed.


Lemma valid_at_coupon F cr cr' y T f :
  valid_quote F cr y T f -> 0 <= cr' -> valid_quote F cr' y T f.
Proof. unfold valid_quote. tauto. Qed.



(** X5.  A higher coupon rate never gives a lower price. *)
Theorem price_rises_with_coupon (F cr cr' y T : Q) (f : Z) :
  valid_quote F cr y T f -> cr <= cr' ->
  exists pm pm' p p',
    price_bond F cr y T f = Ok pm /\ pm !! "price" = Some p /\
    price_bond F cr' y T f = Ok pm' /\ pm' !! "price" = Some p' /\
    p <= p'.
Proof.
  intros Hv Hcc. pose proof Hv as (HF & HT & Hc & Hy & Hf).
  assert (Hv' : valid_quote F cr' y T f) by (apply (valid_at_coupon F cr); [exact Hv | lra]).
  do 4 eexists. split; [now apply price_bond_valid |]. split; [reflexivity |].
  split; [now apply price_bond_valid |]. split; [reflexivity |].
  apply round_mono. now apply dcf_price_mono_coupon.
Qed.

Lemma price_rises_with_coupon_witness :
  valid_quote 1000 0.03 0.05 10 2 /\ 0.03 <= 0.07 /\
  exists pm pm' p p',
    price_bond 1000 0.03 0.05 10 2 = Ok pm /\ pm !! "price" = Some p /\
    price_bond 1000 0.07 0.05 10 2 = Ok pm' /\ pm' !! "price" = Some p' /\
    p <= p'.
Proof.
  assert (Hv : valid_quote 1000 0.03 0.05 10 2) by solve_valid.
  assert (Hc : 0.03 <= 0.07) by (vm_compute; discriminate).
  split; [exact Hv |]. split; [exact Hc |].
  exact (price_rises_with_coupon 1000 0.03 0.07 0.05 10 2 Hv Hc).
Defined.









End PriceProperties.

(** ** Whole periods only, and the merged analytics *)

Section Composition.

Local Open Scope Q_scope.




Lemma price_metrics_price_lookup p F cr y :
  price_metrics p F cr y !! "price" = Some (Py.round p 2).
Proof. reflexivity. Qed.

(** The four result dictionaries have pairwise different keys. *)
Lemma duration_price_disjoint mac r bp p F cr y :
  duration_metrics mac r bp ##ₘ price_metrics p F cr y.
Proof. apply map_disjoint_dom. compute_done. Qed.

Lemma convexity_price_disjoint cx bp p F cr y :
  convexity_metrics cx bp ##ₘ price_metrics p F cr y.
Proof. apply map_disjoint_dom. compute_done. Qed.

Lemma convexity_duration_disjoint cx bp mac r bp' :
  convexity_metrics cx bp ##ₘ duration_metrics mac r bp'.
Proof. apply map_disjoint_dom. compute_done. Qed.

Lemma dv01_price_disjoint p0 p1 F0 p F cr y :
  dv01_metrics p0 p1 F0 ##ₘ price_metrics p F cr y.
Proof. apply map_disjoint_dom. compute_done. Qed.

Lemma dv01_duration_disjoint p0 p1 F0 mac r bp :
  dv01_metrics p0 p1 F0 ##ₘ duration_metrics mac r bp.
Proof. apply map_disjoint_dom. compute_done. Qed.

Lemma dv01_convexity_disjoint p0 p1 F0 cx bp :
  dv01_metrics p0 p1 F0 ##ₘ convexity_metrics cx bp.
Proof. apply map_disjoint_dom. compute_done. Qed.

Lemma metrics_size p F cr y mac r bp cx bp' p0 p1 F0 :
  size (Py.merge
          (Py.merge (Py.merge (price_metrics p F cr y) (duration_metrics mac r bp))
             (convexity_metrics cx bp'))
          (dv01_metrics p0 p1 F0)) = 11%nat.
Proof. vm_compute. reflexivity. Qed.

(** Merging dictionaries with different keys keeps all of them. *)
Lemma merge_disjoint_keeps (pm dm cm vm : gmap string Q) :
  dm ##ₘ pm -> cm ##ₘ pm -> cm ##ₘ dm ->
  vm ##ₘ pm -> vm ##ₘ dm -> vm ##ₘ cm ->
  pm ⊆ Py.merge (Py.merge (Py.merge pm dm) cm) vm /\
  dm ⊆ Py.merge (Py.merge (Py.merge pm dm) cm) vm /\
  cm ⊆ Py.merge (Py.merge (Py.merge pm dm) cm) vm /\
  vm ⊆ Py.merge (Py.merge (Py.merge pm dm) cm) vm /\
  dom (Py.merge (Py.merge (Py.merge pm dm) cm) vm)
    = dom pm ∪ dom dm ∪ dom cm ∪ dom vm.
Proof.
  intros Hdp Hcp Hcd Hvp Hvd Hvc. unfold Py.merge.
  assert (D2 : cm ##ₘ dm ∪ pm) by (apply map_disjoint_union_r; tauto).
  assert (D3 : vm ##ₘ cm ∪ (dm ∪ pm)).
  { apply map_disjoint_union_r. split; [exact Hvc |].
    apply map_disjoint_union_r. tauto. }
  split; [| split; [| split; [| split]]].
  - etransitivity; [| apply map_union_subseteq_r, D3].
    etransitivity; [| apply map_union_subseteq_r, D2].
    apply map_union_subseteq_r, Hdp.
  - etransitivity; [| apply map_union_subseteq_r, D3].
    etransitivity; [| apply map_union_subseteq_r, D2].
    apply map_union_subseteq_l.
  - etransitivity; [| apply map_union_subseteq_r, D3].
    apply map_union_subseteq_l.
  - apply map_union_subseteq_l.
  - rewrite !dom_union_L.
    rewrite (comm_L (∪) (dom vm)). f_equal.
    rewrite (comm_L (∪) (dom cm)). f_equal.
    apply (comm_L (∪)).
Qed.

(** X11.  The Aggregator loses nothing: when the four calculators return,
    [bond_analytics] returns a dictionary that contains each of the four
    results unchanged (no key of one is overwritten by another), and it has
    exactly their 4 + 3 + 2 + 2 = 11 entries. *)
Theorem analytics_keeps_every_metric (F cr y T : Q) (f : Z)
    (pm dm cm vm : gmap string Q) :
  price_bond F cr y T f = Ok pm ->
  calculate_duration F cr y T f = Ok dm ->
  calculate_convexity F cr y T f = Ok cm ->
  calculate_dv01 F cr y T f = Ok vm ->
  exists m,
    bond_analytics F cr y T f = Ok m /\
    pm ⊆ m /\ dm ⊆ m /\ cm ⊆ m /\ vm ⊆ m /\
    dom m = dom pm ∪ dom dm ∪ dom cm ∪ dom vm /\
    size m = 11%nat.
Proof.
  intros Hpm Hdm Hcm Hvm.
  pose proof (price_bond_ok_valid _ _ _ _ _ _ Hpm) as Hv.
  assert (Hbp : ~ base_price F cr y T f == 0).
  { intros Hz. rewrite calculate_convexity_zero_price in Hcm by assumption.
    discriminate Hcm. }
  exists (Py.merge (Py.merge (Py.merge pm dm) cm) vm).
  split.
  { unfold bond_analytics. rewrite Hpm, Hdm, Hcm, Hvm. reflexivity. }
  rewrite (price_bond_valid _ _ _ _ _ Hv) in Hpm.
  rewrite (calculate_duration_valid _ _ _ _ _ Hv (or_introl Hbp)) in Hdm.
  rewrite (calculate_convexity_valid _ _ _ _ _ Hv Hbp) in Hcm.
  rewrite (calculate_dv01_valid _ _ _ _ _ Hv) in Hvm.
  injection Hpm as <-. injection Hdm as <-. injection Hcm as <-.
  injection Hvm as <-.
  destruct (merge_disjoint_keeps
              (price_metrics (dcf_price F cr y T f) F cr y)
              (duration_metrics (macaulay_unrounded F cr y T f)
                 (periodic_yield y f) (base_price F cr y T f))
              (convexity_metrics (convexity_unrounded F cr y T f)
                 (base_price F cr y T f))
              (dv01_metrics (base_price F cr y T f)
                 (base_price F cr (y + 0.0001) T f) F))
    as (H1 & H2 & H3 & H4 & H5).
  { apply duration_price_disjoint. }
  { apply convexity_price_disjoint. }
  { apply convexity_duration_disjoint. }
  { apply dv01_price_disjoint. }
  { apply dv01_duration_disjoint. }
  { apply dv01_convexity_disjoint. }
  split; [exact H1 |]. split; [exact H2 |]. split; [exact H3 |].
  split; [exact H4 |]. split; [exact H5 |].
  apply metrics_size.
Qed.

Lemma analytics_keeps_every_metric_witness :
  exists pm m p,
    price_bond 1000 0.05 0.04 10 2 = Ok pm /\
    bond_analytics 1000 0.05 0.04 10 2 = Ok m /\
    pm ⊆ m /\ m !! "price" = Some p /\ size m = 11%nat.
Proof.
  assert (Hv : valid_quote 1000 0.05 0.04 10 2) by solve_valid.
  assert (Hbp : ~ base_price 1000 0.05 0.04 10 2 == 0)
    by (vm_compute; discriminate).
  destruct (analytics_keeps_every_metric 1000 0.05 0.04 10 2 _ _ _ _
              (price_bond_valid _ _ _ _ _ Hv)
              (calculate_duration_valid _ _ _ _ _ Hv (or_introl Hbp))
              (calculate_convexity_valid _ _ _ _ _ Hv Hbp)
              (calculate_dv01_valid _ _ _ _ _ Hv))
    as (m & Hm & Hsub & _ & _ & _ & _ & Hsize).
  eexists _, m, _. split; [exact (price_bond_valid _ _ _ _ _ Hv) |].
  split; [exact Hm |]. split; [exact Hsub |]. split; [| exact Hsize].
  eapply lookup_weaken; [| exact Hsub]. apply price_metrics_price_lookup.
Defined.

End Composition.

(** ** Signs and orderings of the sensitivities *)

Section SensitivitySigns.

Local Open Scope Q_scope.

Lemma Qdiv_nonneg a b : 0 <= a -> 0 <= b -> 0 <= a / b.
Proof.
  intros Ha Hb. unfold Qdiv. apply Qmult_le_0_compat; [exact Ha |].
  now apply Qinv_le_0_compat.
Qed.

Lemma weighted_sum_nonneg c F r bp n f (k : nat) :
  0 <= c -> 0 < F -> 0 <= r -> 0 <= bp -> 0 < inject_Z f ->
  0 <= weighted_sum c F r bp n f k.
Proof.
  intros Hc HF Hr Hbp Hf. induction k as [| k IH]; [apply Qle_refl |].
  cbn [weighted_sum].
  pose proof (pv_term_nonneg c F r n Hc HF Hr (Z.of_nat (S k))) as Hpv.
  assert (Ht : 0 <= inject_Z (Z.of_nat (S k)) / inject_Z f).
  { apply Qdiv_nonneg; [| lra]. change 0 with (inject_Z 0).
    rewrite <- Zle_Qle. lia. }
  pose proof (Qdiv_nonneg _ _ Hpv Hbp) as Hw.
  pose proof (Qmult_le_0_compat _ _ Hw Ht). lra.
Qed.

Lemma macaulay_unrounded_nonneg F cr y T f :
  valid_quote F cr y T f -> 0 <= macaulay_unrounded F cr y T f.
Proof.
  intros Hv. pose proof Hv as (HF & HT & Hc & Hy & Hf).
  unfold macaulay_unrounded. apply weighted_sum_nonneg; try assumption.
  - now apply coupon_payment_nonneg.
  - now apply periodic_yield_nonneg.
  - now apply base_price_nonneg.
  - now apply frequency_ok_Qpos.
Qed.

Lemma convexity_unrounded_nonneg F cr y T f :
  valid_quote F cr y T f -> 0 <= convexity_unrounded F cr y T f.
Proof.
  intros Hv. pose proof Hv as (HF & HT & Hc & Hy & Hf).
  pose proof (periodic_yield_nonneg y f Hy Hf) as Hr.
  pose proof (coupon_payment_nonneg F cr f HF Hc Hf) as Hcp.
  pose proof (base_price_nonneg _ _ _ _ _ Hv) as Hbp.
  pose proof (growth_pos y f 2 Hy Hf) as Hg.
  unfold convexity_unrounded. apply Qdiv_nonneg.
  - apply Qdiv_nonneg; [now apply convexity_sum_nonneg |].
    apply Qmult_le_0_compat; lra.
  - apply frequency_ok_pos in Hf. change 0 with (inject_Z 0).
    rewrite <- Zle_Qle. nia.
Qed.

(** X12.  On a valid quote with a non-zero base price the duration
    calculator returns [0 <= modified_duration <= macaulay_duration] and an
    [approx_price_change_1bp] that is never positive; at a zero yield the two
    durations coincide. *)
Theorem duration_ordering (F cr y T : Q) (f : Z) :
  valid_quote F cr y T f ->
  ~ base_price F cr y T f == 0 ->
  exists dm mac md a,
    calculate_duration F cr y T f = Ok dm /\
    dm !! "macaulay_duration" = Some mac /\
    dm !! "modified_duration" = Some md /\
    dm !! "approx_price_change_1bp" = Some a /\
    0 <= md /\ md <= mac /\ a <= 0 /\
    (y == 0 -> md == mac).
Proof.
  intros Hv Hbp. pose proof Hv as (HF & HT & Hc & Hy & Hf).
  pose proof (periodic_yield_nonneg y f Hy Hf) as Hr.
  pose proof (macaulay_unrounded_nonneg _ _ _ _ _ Hv) as Hmac.
  pose proof (base_price_nonneg _ _ _ _ _ Hv) as Hbp0.
  set (mac := macaulay_unrounded F cr y T f) in *.
  set (r := periodic_yield y f) in *.
  set (bp := base_price F cr y T f) in *.
  assert (Hmd0 : 0 <= mac / (1 + r)) by (apply Qdiv_nonneg; lra).
  assert (Hmdle : mac / (1 + r) <= mac).
  { apply Qle_shift_div_r; [lra | nra]. }
  exists (duration_metrics mac r bp). do 3 eexists.
  split; [apply calculate_duration_valid; [exact Hv | left; exact Hbp] |].
  split; [reflexivity |]. split; [reflexivity |]. split; [reflexivity |].
  split; [now apply round_nonneg |].
  split; [now apply round_mono |].
  split.
  - apply round_nonpos.
    pose proof (Qmult_le_0_compat _ _ Hmd0 Hbp0) as Hprod.
    set (md := mac / (1 + r)) in *. nra.
  - intros Hy0.
    assert (H1 : mac / (1 + r) == mac).
    { assert (Hr0 : r == 0).
      { unfold r, periodic_yield. rewrite Hy0. field.
        now apply frequency_ok_neq0. }
      rewrite Hr0. field. }
    now rewrite H1.
Qed.

Lemma duration_ordering_witness :
  valid_quote 1000 0.05 0.04 10 2 /\
  ~ base_price 1000 0.05 0.04 10 2 == 0 /\
  exists dm mac md,
    calculate_duration 1000 0.05 0.04 10 2 = Ok dm /\
    dm !! "macaulay_duration" = Some mac /\
    dm !! "modified_duration" = Some md /\
    0 <= md /\ md <= mac.
Proof.
  assert (Hv : valid_quote 1000 0.05 0.04 10 2) by solve_valid.
  assert (Hbp : ~ base_price 1000 0.05 0.04 10 2 == 0)
    by (vm_compute; discriminate).
  split; [exact Hv |]. split; [exact Hbp |].
  destruct (duration_ordering 1000 0.05 0.04 10 2 Hv Hbp)
    as (dm & mac & md & a & Hd & Hmac & Hmd & _ & H0 & Hle & _).
  exists dm, mac, md. split; [exact Hd |]. split; [exact Hmac |].
  split; [exact Hmd |]. split; [exact H0 | exact Hle].
Defined.

(** X13.  With [yield_change = 0] the scenario estimate is exact: both
    effects are 0, the estimated and the actual new price are the current
    price, and the estimation error is 0. *)
Theorem zero_shift_is_exact (F cr y T : Q) (f : Z) (incl : bool) :
  valid_quote F cr y T f ->
  ~ base_price F cr y T f == 0 ->
  exists m cur est act err de ce,
    price_change_estimate F cr y T 0 f incl = Ok m /\
    m !! "current_price" = Some cur /\
    m !! "estimated_new_price" = Some est /\
    m !! "actual_new_price" = Some act /\
    m !! "estimation_error" = Some err /\
    m !! "duration_effect" = Some de /\
    m !! "convexity_effect" = Some ce /\
    cur == base_price F cr y T f /\ est == cur /\ act == cur /\
    err == 0 /\ de == 0 /\ ce == 0.
Proof.
  intros Hv Hbp. pose proof Hv as (HF & HT & Hc & Hy & Hf).
  assert (Hdy : 0 <= y + 0) by lra.
  assert (Hact : base_price F cr (y + 0) T f == base_price F cr y T f).
  { unfold base_price. rewrite (dcf_price_yield_eq F cr y (y + 0) T f);
      [reflexivity | exact Hv | ring]. }
  set (cur := base_price F cr y T f) in *.
  set (md := Py.round (macaulay_unrounded F cr y T f / (1 + periodic_yield y f)) 4).
  set (cx := Py.round (convexity_unrounded F cr y T f) 4).
  assert (Hde : duration_effect md cur 0 == 0)
    by (unfold duration_effect; ring).
  assert (Hce : convexity_effect cx cur 0 incl == 0).
  { unfold convexity_effect. destruct incl; [| reflexivity].
    change (0 ^ 2) with (0 * 0). ring. }
  assert (Hest : estimated_new_price cur md cx 0 incl == cur).
  { unfold estimated_new_price. rewrite Hde, Hce. ring. }
  assert (Hcur : Py.round cur 2 == cur) by apply round_idempotent.
  exists (estimate_metrics cur md cx (base_price F cr (y + 0) T f) 0 incl).
  do 6 eexists.
  split; [now apply price_change_estimate_valid |].
  do 6 (split; [reflexivity |]).
  split; [exact Hcur |].
  split; [now rewrite Hest |].
  split; [now rewrite Hact |].
  split.
  - assert (H0 : estimated_new_price cur md cx 0 incl
                 - base_price F cr (y + 0) T f == 0)
      by (rewrite Hest, Hact; ring).
    rewrite H0. apply round_0.
  - split; [rewrite Hde | rewrite Hce]; apply round_0.
Qed.

Lemma zero_shift_is_exact_witness :
  valid_quote 1000 0.05 0.04 10 2 /\
  ~ base_price 1000 0.05 0.04 10 2 == 0 /\
  exists m err,
    price_change_estimate 1000 0.05 0.04 10 0 2 true = Ok m /\
    m !! "estimation_error" = Some err /\ err == 0.
Proof.
  assert (Hv : valid_quote 1000 0.05 0.04 10 2) by solve_valid.
  assert (Hbp : ~ base_price 1000 0.05 0.04 10 2 == 0)
    by (vm_compute; discriminate).
  split; [exact Hv |]. split; [exact Hbp |].
  destruct (zero_shift_is_exact 1000 0.05 0.04 10 2 true Hv Hbp)
    as (m & cur & est & act & err & de & ce & Hm & _ & _ & _ & Herr & _ & _ &
        _ & _ & _ & H0 & _).
  exists m, err. split; [exact Hm |]. split; [exact Herr | exact H0].
Defined.



(** X15.  On a valid quote with a non-zero base price neither output of
    the convexity calculator is negative. *)
Theorem convexity_outputs_nonnegative (F cr y T : Q) (f : Z) :
  valid_quote F cr y T f ->
  ~ base_price F cr y T f == 0 ->
  exists cm cx adj,
    calculate_convexity F cr y T f = Ok cm /\
    cm !! "convexity" = Some cx /\
    cm !! "convexity_adjustment_1bp" = Some adj /\
    0 <= cx /\ 0 <= adj.
Proof.
  intros Hv Hbp.
  pose proof (convexity_unrounded_nonneg _ _ _ _ _ Hv) as Hcx.
  pose proof (base_price_nonneg _ _ _ _ _ Hv) as Hbp0.
  do 3 eexists. split; [now apply calculate_convexity_valid |].
  split; [reflexivity |]. split; [reflexivity |].
  split; [now apply round_nonneg |].
  apply round_nonneg.
  pose proof (Qmult_le_0_compat _ _ Hcx Hbp0) as Hprod.
  set (k := convexity_unrounded F cr y T f * base_price F cr y T f) in *.
  assert (He : 0.5 * convexity_unrounded F cr y T f * 0.0001 ^ 2
               * base_price F cr y T f == (0.5 * 0.0001 ^ 2) * k)
    by (unfold k; ring).
  rewrite He. apply Qmult_le_0_compat; [| exact Hprod].
  vm_compute. discriminate.
Qed.

Lemma convexity_outputs_nonnegative_witness :
  valid_quote 1000 0.05 0.04 10 2 /\
  ~ base_price 1000 0.05 0.04 10 2 == 0 /\
  exists cm adj,
    calculate_convexity 1000 0.05 0.04 10 2 = Ok cm /\
    cm !! "convexity_adjustment_1bp" = Some adj /\ 0 <= adj.
Proof.
  assert (Hv : valid_quote 1000 0.05 0.04 10 2) by solve_valid.
  assert (Hbp : ~ base_price 1000 0.05 0.04 10 2 == 0)
    by (vm_compute; discriminate).
  split; [exact Hv |]. split; [exact Hbp |].
  destruct (convexity_outputs_nonnegative 1000 0.05 0.04 10 2 Hv Hbp)
    as (cm & cx & adj & Hc & _ & Hadj & _ & H0).
  exists cm, adj. split; [exact Hc |]. split; [exact Hadj | exact H0].
Defined.

End SensitivitySigns.
